(** * Queue-based sliding-window rate limiter

    A shallow embedding of [app/core/rate_limiter.py]: the classes
    [RateLimiter] and [UserRateLimiter], together with the two library
    objects they are built on, [collections.deque(maxlen=...)] and
    [asyncio.Queue(maxsize=...)].

    Modelling conventions.
    - Readings of [time.time()] are exact rationals ([Q]); configuration
      integers are [Z].
    - A coroutine is run from one suspension point to the next; each such
      run is one [Event] of the limiter, and the scheduler is the list of
      events.  The [with self.lock] blocks contain no [await], so each of
      them is executed inside a single event.
    - Python objects that are compared by identity ([asyncio.Future]
      instances, [RateLimiter] instances held by the registry) are named by
      their allocation index.
    - The development assumes a running event loop, which
      [asyncio.create_task] in [RateLimiter.__init__] requires. *)

From Stdlib Require Import QArith Qminmax Lqa ZArith List String.
From stdpp Require Import gmap strings list.

(** ** Python values shared by the model *)

Inductive PyExc : Type :=
| ValueError
| IndexError
| QueueFull
| HTTPException (status_code : Z) (detail : string).

(** The result of running an awaitable up to its first suspension. *)
Inductive Await (A : Type) : Type :=
| Ready (a : A)
| Suspend
| Raise (e : PyExc).
Arguments Ready {A} a.
Arguments Suspend {A}.
Arguments Raise {A} e.

(** An [asyncio.Future], named by its creation index. *)
Definition Future : Type := nat.

Definition Timestamp : Type := Q.

(** [x < y] on timestamps, as a boolean. *)
Definition Qltb (x y : Q) : bool := negb (Qle_bool y x).

(** ** [collections.deque] with a [maxlen] *)
Module Deque.

(** [deque(maxlen=n)] raises [ValueError] for a negative [n]. *)
Definition new (maxlen : Z) : PyExc + list Timestamp :=
  if (maxlen <? 0)%Z then inl ValueError else inr [].

(** [d.append(x)]: the item is added on the right and, when the deque
    has outgrown [maxlen], one item is discarded from the left. *)
Definition append (maxlen : Z) (d : list Timestamp) (x : Timestamp)
  : list Timestamp :=
  let d' := d ++ [x] in
  if (maxlen <? Z.of_nat (length d'))%Z then tl d' else d'.

End Deque.

(** ** [asyncio.Queue] *)
Module Queue.

Record t : Type := mk {
  maxsize : Z;
  items : list Future;      (* the queued items, oldest first *)
  putters : list Future     (* callers suspended inside [put], with the
                               item each of them is about to enqueue *)
}.

Definition new (maxsize : Z) : t :=
  {| maxsize := maxsize; items := []; putters := [] |}.

Definition qsize (q : t) : nat := length (items q).

(** [full()]: a queue with [maxsize <= 0] is never full. *)
Definition full (q : t) : bool :=
  if (maxsize q <=? 0)%Z then false
  else (maxsize q <=? Z.of_nat (qsize q))%Z.

(** [put_nowait(item)]: raises [QueueFull] when the queue is full. *)
Definition put_nowait (item : Future) (q : t) : PyExc + t :=
  if full q then inl QueueFull
  else inr {| maxsize := maxsize q;
              items := items q ++ [item];
              putters := putters q |}.

(** [await put(item)]: while the queue is full the caller is parked on
    the putters list; otherwise the item goes in through
    [put_nowait]. *)
Definition put (item : Future) (q : t) : Await unit * t :=
  if full q
  then (Suspend, {| maxsize := maxsize q;
                    items := items q;
                    putters := putters q ++ [item] |})
  else match put_nowait item q with
       | inl e => (Raise e, q)
       | inr q' => (Ready tt, q')
       end.

(** A caller parked in [put] is resumed and goes round the
    [while self.full()] loop once more.  Which parked caller runs next is
    the scheduler's choice, so any of them may be resumed at any time.
    [None]: no such caller. *)
Definition resume_put (item : Future) (q : t) : option (Await unit * t) :=
  if bool_decide (item ∈ putters q) then
    if full q then Some (Suspend, q)
    else
      let q0 := {| maxsize := maxsize q;
                   items := items q;
                   putters := list_filter (λ f, f ≠ item) _ (putters q) |} in
      match put_nowait item q0 with
      | inl e => Some (Raise e, q0)
      | inr q' => Some (Ready tt, q')
      end
  else None.

(** [await get()]: suspends on an empty queue, otherwise pops the oldest
    item. *)
Definition get (q : t) : Await Future * t :=
  match items q with
  | [] => (Suspend, q)
  | item :: rest =>
      (Ready item, {| maxsize := maxsize q;
                      items := rest;
                      putters := putters q |})
  end.

End Queue.

(** ** [RateLimiter] *)

(** Where the background task [_process_queue] is suspended. *)
Inductive QueueTask : Type :=
| AwaitingGet                        (* in [await self.request_queue.get()] *)
| AwaitingToken (future : Future)    (* in [_wait_for_token], holding [future] *)
| Crashed (e : PyExc).               (* ended by an uncaught exception *)

Record RateLimiter : Type := mkRateLimiter {
  max_requests : Z;
  time_window : Q;
  max_queue_size : Z;
  request_timestamps : list Timestamp;  (* deque(maxlen=max_requests) *)
  request_queue : Queue.t;
  queue_task : QueueTask;
  futures_created : nat                 (* index of the next [Future()] *)
}.

Definition set_request_timestamps (ts : list Timestamp) (self : RateLimiter)
  : RateLimiter :=
  {| max_requests := max_requests self;
     time_window := time_window self;
     max_queue_size := max_queue_size self;
     request_timestamps := ts;
     request_queue := request_queue self;
     queue_task := queue_task self;
     futures_created := futures_created self |}.

Definition set_request_queue (q : Queue.t) (self : RateLimiter) : RateLimiter :=
  {| max_requests := max_requests self;
     time_window := time_window self;
     max_queue_size := max_queue_size self;
     request_timestamps := request_timestamps self;
     request_queue := q;
     queue_task := queue_task self;
     futures_created := futures_created self |}.

Definition set_queue_task (k : QueueTask) (self : RateLimiter) : RateLimiter :=
  {| max_requests := max_requests self;
     time_window := time_window self;
     max_queue_size := max_queue_size self;
     request_timestamps := request_timestamps self;
     request_queue := request_queue self;
     queue_task := k;
     futures_created := futures_created self |}.

(** [asyncio.Future()]: a fresh future. *)
Definition new_future (self : RateLimiter) : Future * RateLimiter :=
  (futures_created self,
   {| max_requests := max_requests self;
      time_window := time_window self;
      max_queue_size := max_queue_size self;
      request_timestamps := request_timestamps self;
      request_queue := request_queue self;
      queue_task := queue_task self;
      futures_created := S (futures_created self) |}).

(** [RateLimiter.__init__] *)
Definition RateLimiter_init (max_requests : Z) (time_window : Q)
    (max_queue_size : Z) : PyExc + RateLimiter :=
  match Deque.new max_requests with
  | inl e => inl e
  | inr d =>
      inr {| max_requests := max_requests;
             time_window := time_window;
             max_queue_size := max_queue_size;
             request_timestamps := d;
             request_queue := Queue.new max_queue_size;
             queue_task := AwaitingGet;
             futures_created := 0 |}
  end.

(** The pruning loop
    [while ts and ts[0] < current_time - time_window: ts.popleft()]. *)
Fixpoint prune (current_time time_window : Q) (ts : list Timestamp)
  : list Timestamp :=
  match ts with
  | [] => []
  | oldest :: rest =>
      if Qltb oldest (current_time - time_window)
      then prune current_time time_window rest
      else ts
  end.

(** A timestamp the loop discards, and one it stops at. *)
Definition is_stale (current_time time_window : Q) (t : Timestamp) : Prop :=
  (t < current_time - time_window)%Q.

Definition is_fresh (current_time time_window : Q) (t : Timestamp) : bool :=
  Qle_bool (current_time - time_window) t.

(** The body of [with self.lock: ...], which [limit] and
    [_wait_for_token] share word for word: prune, then take a slot if the
    window has one.  The boolean tells whether the block returned. *)
Definition acquire (current_time : Q) (self : RateLimiter)
  : bool * RateLimiter :=
  let ts := prune current_time (time_window self) (request_timestamps self) in
  if (Z.of_nat (length ts) <? max_requests self)%Z
  then (true,
        set_request_timestamps
          (Deque.append (max_requests self) ts current_time) self)
  else (false, set_request_timestamps ts self).

(** What a call to [limit] has produced when it first returns, raises or
    suspends. *)
Inductive Outcome : Type :=
| Allowed                                     (* returned *)
| Queued (future : Future)                    (* suspended in [await future] *)
| Blocked (future : Future)                   (* suspended in [await put] *)
| Rejected (status_code : Z) (detail : string)(* [HTTPException] *)
| Failed (e : PyExc).                         (* any other exception *)

(** The [try ... except asyncio.QueueFull] around the enqueue. *)
Definition on_put (future : Future) (r : Await unit) : Outcome :=
  match r with
  | Ready _ => Queued future
  | Suspend => Blocked future
  | Raise QueueFull =>
      Rejected 429 "Too many requests. Please try again later."
  | Raise e => Failed e
  end.

(** [RateLimiter.limit], called when the clock reads [current_time]. *)
Definition limit (current_time : Q) (self : RateLimiter)
  : Outcome * RateLimiter :=
  match acquire current_time self with
  | (true, self1) => (Allowed, self1)
  | (false, self1) =>
      let '(future, self2) := new_future self1 in
      let '(r, q) := Queue.put future (request_queue self2) in
      (on_put future r, set_request_queue q self2)
  end.

(** A caller of [limit] that was suspended in [put] is resumed. *)
Definition limit_resume (future : Future) (self : RateLimiter)
  : option (Outcome * RateLimiter) :=
  match Queue.resume_put future (request_queue self) with
  | Some (r, q) => Some (on_put future r, set_request_queue q self)
  | None => None
  end.

(** One round of the loop of [_wait_for_token]. *)
Inductive TokenWait : Type :=
| Acquired
| Sleep (delay : Q)
| TokenRaise (e : PyExc).

Definition wait_for_token (current_time : Q) (self : RateLimiter)
  : TokenWait * RateLimiter :=
  match acquire current_time self with
  | (true, self1) => (Acquired, self1)
  | (false, self1) =>
      match request_timestamps self1 with
      | [] => (TokenRaise IndexError, self1)
      | oldest_timestamp :: _ =>
          let wait_time :=
            (oldest_timestamp + time_window self1 - current_time)%Q in
          if Qltb 0 wait_time
          then (Sleep (Qmin wait_time 1), self1)
          else (Sleep (1 # 10), self1)
      end
  end.

(** ** The limiter as a transition system *)

(** One scheduling step of a limiter: a coroutine runs from one suspension
    point to the next. *)
Inductive Event : Type :=
| Call (current_time : Q)       (* a request handler awaits [limit()] *)
| ResumePut (future : Future)   (* a caller parked in [put] is resumed *)
| TaskGet                       (* [_process_queue]: [await queue.get()] *)
| TaskTry (current_time : Q).   (* [_process_queue]: one round of
                                   [_wait_for_token], then
                                   [future.set_result(None)] on success *)

(** What a step makes observable. *)
Inductive Obs : Type :=
| Limit (current_time : Q) (o : Outcome)     (* outcome of a call to [limit] *)
| Resumed (o : Outcome)                      (* outcome of a resumed [put] *)
| Taken (future : Future)                    (* the task dequeued [future] *)
| Released (future : Future) (timestamp : Q) (* [future] resolved: its caller
                                                returns from [limit] *)
| Slept (delay : Q)                          (* the task sleeps for [delay] *)
| TaskFault (e : PyExc)                      (* the task ended with [e] *)
| Stalled.                                   (* the step had nothing to run *)

(** [_process_queue] up to [await self.request_queue.get()]. *)
Definition process_queue_get (self : RateLimiter) : Obs * RateLimiter :=
  match queue_task self with
  | AwaitingGet =>
      match Queue.get (request_queue self) with
      | (Ready future, q) =>
          (Taken future,
           set_queue_task (AwaitingToken future) (set_request_queue q self))
      | (_, _) => (Stalled, self)
      end
  | _ => (Stalled, self)
  end.

(** [_process_queue] from [await self._wait_for_token()] on: one round of
    the token loop, and on success the future is resolved and the task goes
    back to [get]. *)
Definition process_queue_try (current_time : Q) (self : RateLimiter)
  : Obs * RateLimiter :=
  match queue_task self with
  | AwaitingToken future =>
      match wait_for_token current_time self with
      | (Acquired, self1) =>
          (Released future current_time, set_queue_task AwaitingGet self1)
      | (Sleep delay, self1) => (Slept delay, self1)
      | (TokenRaise e, self1) => (TaskFault e, set_queue_task (Crashed e) self1)
      end
  | _ => (Stalled, self)
  end.

Definition step (ev : Event) (self : RateLimiter) : Obs * RateLimiter :=
  match ev with
  | Call current_time =>
      let '(o, self') := limit current_time self in
      (Limit current_time o, self')
  | ResumePut future =>
      match limit_resume future self with
      | Some (o, self') => (Resumed o, self')
      | None => (Stalled, self)
      end
  | TaskGet => process_queue_get self
  | TaskTry current_time => process_queue_try current_time self
  end.

(** A schedule is run from left to right; the observations come out in the
    same order. *)
Fixpoint run (evs : list Event) (self : RateLimiter)
  : list Obs * RateLimiter :=
  match evs with
  | [] => ([], self)
  | ev :: evs' =>
      let '(o, self1) := step ev self in
      let '(os, self2) := run evs' self1 in
      (o :: os, self2)
  end.

(** The clock readings of a schedule, in order. *)
Fixpoint clock_readings (evs : list Event) : list Q :=
  match evs with
  | [] => []
  | Call t :: evs' => t :: clock_readings evs'
  | TaskTry t :: evs' => t :: clock_readings evs'
  | _ :: evs' => clock_readings evs'
  end.

(** The clock never runs backwards: every reading is at least [t0] and the
    readings do not decrease. *)
Fixpoint monotonic_from (t0 : Q) (readings : list Q) : Prop :=
  match readings with
  | [] => True
  | t :: rest => (t0 <= t)%Q ∧ monotonic_from t rest
  end.

Definition monotonic (readings : list Q) : Prop :=
  match readings with
  | [] => True
  | t :: rest => monotonic_from t rest
  end.

(** The timestamps of the admissions in a list of observations: the calls
    that returned on the fast path and the futures the task resolved. *)
Fixpoint admitted (os : list Obs) : list Timestamp :=
  match os with
  | [] => []
  | Limit t Allowed :: os' => t :: admitted os'
  | Released _ t :: os' => t :: admitted os'
  | _ :: os' => admitted os'
  end.

(** The futures that entered the queue, in the order they did. *)
Fixpoint enqueued (os : list Obs) : list Future :=
  match os with
  | [] => []
  | Limit _ (Queued f) :: os' => f :: enqueued os'
  | Resumed (Queued f) :: os' => f :: enqueued os'
  | _ :: os' => enqueued os'
  end.

(** The futures the task resolved, in the order it did. *)
Fixpoint released (os : list Obs) : list Future :=
  match os with
  | [] => []
  | Released f _ :: os' => f :: released os'
  | _ :: os' => released os'
  end.

(** The rejections in a list of observations. *)
Fixpoint rejections (os : list Obs) : nat :=
  match os with
  | [] => 0
  | Limit _ (Rejected _ _) :: os' => S (rejections os')
  | Resumed (Rejected _ _) :: os' => S (rejections os')
  | _ :: os' => rejections os'
  end.

(** How many timestamps of [ts] lie in the closed interval
    [[lo, lo + width]]. *)
Definition in_interval (lo width : Q) (t : Timestamp) : bool :=
  Qle_bool lo t && Qle_bool t (lo + width).

Fixpoint count_in (lo width : Q) (ts : list Timestamp) : nat :=
  match ts with
  | [] => 0
  | t :: rest =>
      (if in_interval lo width t then 1 else 0) + count_in lo width rest
  end.

(** The future the task is working on, if any. *)
Definition in_service (self : RateLimiter) : list Future :=
  match queue_task self with
  | AwaitingToken future => [future]
  | _ => []
  end.

(** [a] occurs strictly before [b] in [l]. *)
Definition before (a b : Future) (l : list Future) : Prop :=
  ∃ l1 l2 l3, l = l1 ++ a :: l2 ++ b :: l3.

(** ** [UserRateLimiter] *)

(** A [RateLimiter] object, named by its index on the heap of limiter
    objects. *)
Definition Ref : Type := nat.

Record UserRateLimiter : Type := mkUserRateLimiter {
  user_max_requests : Z;
  user_time_window : Q;
  user_max_queue_size : Z;
  limiters : gmap string Ref      (* Dict[str, RateLimiter] *)
}.

(** The registry together with the limiter objects it refers to. *)
Record World : Type := mkWorld {
  registry : UserRateLimiter;
  heap : list RateLimiter
}.

(** [UserRateLimiter.__init__] *)
Definition UserRateLimiter_init (max_requests : Z) (time_window : Q)
    (max_queue_size : Z) : UserRateLimiter :=
  {| user_max_requests := max_requests;
     user_time_window := time_window;
     user_max_queue_size := max_queue_size;
     limiters := ∅ |}.

Definition set_limiters (m : gmap string Ref) (u : UserRateLimiter)
  : UserRateLimiter :=
  {| user_max_requests := user_max_requests u;
     user_time_window := user_time_window u;
     user_max_queue_size := user_max_queue_size u;
     limiters := m |}.

(** [UserRateLimiter.get_limiter] *)
Definition get_limiter (user_id : string) (w : World) : (PyExc + Ref) * World :=
  let self := registry w in
  match limiters self !! user_id with
  | Some r => (inr r, w)
  | None =>
      match RateLimiter_init (user_max_requests self) (user_time_window self)
              (user_max_queue_size self) with
      | inl e => (inl e, w)
      | inr limiter =>
          let r := length (heap w) in
          (inr r,
           {| registry := set_limiters (<[user_id := r]> (limiters self)) self;
              heap := heap w ++ [limiter] |})
      end
  end.

(** A scheduling step of the limiter object [r]. *)
Definition step_at (r : Ref) (ev : Event) (w : World) : option Obs * World :=
  match heap w !! r with
  | Some limiter =>
      let '(o, limiter') := step ev limiter in
      (Some o, {| registry := registry w; heap := <[r := limiter']> (heap w) |})
  | None => (None, w)
  end.

(** What can happen to a registry: a lookup, or a step of one of the
    limiter objects. *)
Inductive Op : Type :=
| GetLimiter (user_id : string)
| OnLimiter (r : Ref) (ev : Event).

Definition apply_op (op : Op) (w : World) : World :=
  match op with
  | GetLimiter user_id => snd (get_limiter user_id w)
  | OnLimiter r ev => snd (step_at r ev w)
  end.

Fixpoint apply_ops (ops : list Op) (w : World) : World :=
  match ops with
  | [] => w
  | op :: ops' => apply_ops ops' (apply_op op w)
  end.

(** ** Invariants *)

(** The part of a limiter the admission decisions depend on. *)
Definition view (self : RateLimiter) : Z * Q * list Timestamp :=
  (max_requests self, time_window self, request_timestamps self).

(** The window invariant, for a limiter whose admissions so far are
    [history] and whose clock has reached [t0]: the window is within its
    bound; it is the tail of [history], and what is no longer in it was
    stale at [t0]; no closed interval of length [time_window] holds more
    than [max_requests] admissions. *)
Definition window_inv (t0 : Q) (history : list Timestamp) (self : RateLimiter)
  : Prop :=
  (Z.of_nat (length (request_timestamps self)) <= max_requests self)%Z
  ∧ (∃ old, history = old ++ request_timestamps self
            ∧ Forall (is_stale t0 (time_window self)) old)
  ∧ ∀ lo, (Z.of_nat (count_in lo (time_window self) history)
           <= max_requests self)%Z.

(** Futures are not confused: among those that were enqueued and those
    still waiting to be, none occurs twice, and each was created by this
    limiter. *)
Definition pool_inv (created : nat) (enq waiting : list Future) : Prop :=
  NoDup (enq ++ waiting) ∧ Forall (λ f, f < created) (enq ++ waiting).

(** The queue invariant, for a limiter whose task has resolved the futures
    [rel], out of the futures [enq] that entered the queue: [enq] is
    [rel], then the future the task took and has not resolved, then the
    contents of the queue. *)
Definition fifo_inv (enq rel : list Future) (self : RateLimiter) : Prop :=
  (∃ mid, enq = rel ++ mid ++ Queue.items (request_queue self)
          ∧ match queue_task self with
            | AwaitingGet => mid = []
            | AwaitingToken future => mid = [future]
            | Crashed _ => length mid ≤ 1
            end)
  ∧ pool_inv (futures_created self) enq (Queue.putters (request_queue self)).

(** The registry invariant: every key names a limiter object on the heap,
    and different keys name different objects. *)
Definition registry_inv (w : World) : Prop :=
  (∀ k r, limiters (registry w) !! k = Some r → r < length (heap w))
  ∧ (∀ k1 k2 r, limiters (registry w) !! k1 = Some r →
                limiters (registry w) !! k2 = Some r → k1 = k2).

(** A registry as [UserRateLimiter.__init__] builds it, next to whatever
    limiter objects exist already. *)
Definition new_world (max_requests : Z) (time_window : Q) (max_queue_size : Z)
    (heap0 : list RateLimiter) : World :=
  {| registry := UserRateLimiter_init max_requests time_window max_queue_size;
     heap := heap0 |}.

(** A window in time order whose entries are no later than the clock
    reading [t0]. *)
Definition in_order (t0 : Q) (ts : list Timestamp) : Prop :=
  monotonic (ts ++ [t0]).

(** * Properties *)

(** ** Comparisons on timestamps *)

Lemma Qltb_lt (x y : Q) : Qltb x y = true ↔ (x < y)%Q.
Proof.
  unfold Qltb. rewrite negb_true_iff.
  destruct (Qle_bool y x) eqn:E.
  - apply Qle_bool_iff in E. split; [discriminate | intros H; lra].
  - split; [intros _ | reflexivity].
    destruct (Qlt_le_dec x y) as [H | H]; [exact H |].
    apply Qle_bool_iff in H. congruence.
Qed.

Lemma Qltb_ge (x y : Q) : Qltb x y = false ↔ (y <= x)%Q.
Proof.
  unfold Qltb. rewrite negb_false_iff. apply Qle_bool_iff.
Qed.

Lemma in_interval_spec (lo width t : Q) :
  in_interval lo width t = true ↔ (lo <= t)%Q ∧ (t <= lo + width)%Q.
Proof.
  unfold in_interval. rewrite andb_true_iff, !Qle_bool_iff. reflexivity.
Qed.

(** ** Pruning *)

Section Prune.

Variables current_time time_window : Q.

Lemma prune_split (ts : list Timestamp) :
  ∃ old, ts = old ++ prune current_time time_window ts
         ∧ Forall (is_stale current_time time_window) old.
Proof.
  induction ts as [| t ts IH]; simpl.
  - exists []. split; [reflexivity | constructor].
  - destruct (Qltb t (current_time - time_window)) eqn:E.
    + destruct IH as (old & Heq & Hold).
      exists (t :: old). split.
      * simpl. f_equal. exact Heq.
      * constructor; [apply Qltb_lt; exact E | exact Hold].
    + exists []. split; [reflexivity | constructor].
Qed.

Lemma prune_head (ts : list Timestamp) (t : Timestamp) (rest : list Timestamp) :
  prune current_time time_window ts = t :: rest →
  (current_time - time_window <= t)%Q.
Proof.
  induction ts as [| t' ts IH]; simpl; [discriminate |].
  destruct (Qltb t' (current_time - time_window)) eqn:E; [exact IH |].
  intros [= -> _]. apply Qltb_ge. exact E.
Qed.

Lemma prune_idempotent (ts : list Timestamp) :
  prune current_time time_window (prune current_time time_window ts)
  = prune current_time time_window ts.
Proof.
  induction ts as [| t ts IH]; simpl; [reflexivity |].
  destruct (Qltb t (current_time - time_window)) eqn:E; [exact IH |].
  simpl. rewrite E. reflexivity.
Qed.

Lemma prune_length (ts : list Timestamp) :
  length (prune current_time time_window ts) ≤ length ts.
Proof.
  induction ts as [| t ts IH]; simpl; [lia |].
  destruct (Qltb t (current_time - time_window)); simpl; lia.
Qed.

Lemma filter_fresh_stale (old : list Timestamp) :
  Forall (is_stale current_time time_window) old →
  List.filter (is_fresh current_time time_window) old = [].
Proof.
  induction 1 as [| t old Ht _ IH]; simpl; [reflexivity |].
  unfold is_fresh at 1. destruct (Qle_bool _ t) eqn:E; [| exact IH].
  apply Qle_bool_iff in E. unfold is_stale in Ht. lra.
Qed.

Lemma prune_keeps_fresh (ts : list Timestamp) :
  List.filter (is_fresh current_time time_window)
    (prune current_time time_window ts)
  = List.filter (is_fresh current_time time_window) ts.
Proof.
  destruct (prune_split ts) as (old & Heq & Hold).
  rewrite Heq at 2. rewrite List.filter_app, (filter_fresh_stale old Hold).
  reflexivity.
Qed.

Lemma monotonic_from_ge (t0 : Q) (ts : list Timestamp) :
  monotonic_from t0 ts → Forall (λ t, (t0 <= t)%Q) ts.
Proof.
  revert t0. induction ts as [| t ts IH]; simpl; intros t0 H; [constructor |].
  destruct H as [H0 H]. constructor; [exact H0 |].
  eapply Forall_impl; [apply IH, H |].
  simpl. intros x Hx. lra.
Qed.

Lemma filter_fresh_all (ts : list Timestamp) :
  Forall (λ t, (current_time - time_window <= t)%Q) ts →
  List.filter (is_fresh current_time time_window) ts = ts.
Proof.
  induction 1 as [| t ts Ht _ IH]; simpl; [reflexivity |].
  unfold is_fresh at 1. apply Qle_bool_iff in Ht. rewrite Ht, IH. reflexivity.
Qed.

Lemma prune_monotonic (ts : list Timestamp) :
  monotonic ts →
  prune current_time time_window ts
  = List.filter (is_fresh current_time time_window) ts.
Proof.
  induction ts as [| t ts IH]; simpl; [reflexivity |].
  intros Hmon. unfold is_fresh at 1.
  destruct (Qltb t (current_time - time_window)) eqn:E.
  - apply Qltb_lt in E.
    destruct (Qle_bool _ t) eqn:E'; [apply Qle_bool_iff in E'; lra |].
    apply IH. destruct ts; simpl in *; [exact I | apply Hmon].
  - apply Qltb_ge in E. pose proof E as E'.
    apply Qle_bool_iff in E'. rewrite E'. f_equal.
    symmetry. apply filter_fresh_all.
    eapply Forall_impl; [apply monotonic_from_ge, Hmon |].
    simpl. intros x Hx. lra.
Qed.

End Prune.

(** ** The critical section *)

Lemma append_room (maxlen : Z) (d : list Timestamp) (x : Timestamp) :
  (Z.of_nat (length d) < maxlen)%Z → Deque.append maxlen d x = d ++ [x].
Proof.
  intros H. unfold Deque.append. cbv zeta.
  rewrite length_app. simpl.
  destruct (Z.ltb_spec maxlen (Z.of_nat (length d + 1))); [lia | reflexivity].
Qed.

Lemma acquire_granted (current_time : Q) (self : RateLimiter) :
  let ts := prune current_time (time_window self) (request_timestamps self) in
  (Z.of_nat (length ts) < max_requests self)%Z →
  acquire current_time self
  = (true, set_request_timestamps (ts ++ [current_time]) self).
Proof.
  intros ts H. unfold acquire. fold ts.
  destruct (Z.ltb_spec (Z.of_nat (length ts)) (max_requests self)); [| lia].
  rewrite append_room by assumption. reflexivity.
Qed.

Lemma acquire_refused (current_time : Q) (self : RateLimiter) :
  let ts := prune current_time (time_window self) (request_timestamps self) in
  (max_requests self <= Z.of_nat (length ts))%Z →
  acquire current_time self = (false, set_request_timestamps ts self).
Proof.
  intros ts H. unfold acquire. fold ts.
  destruct (Z.ltb_spec (Z.of_nat (length ts)) (max_requests self)); [lia |].
  reflexivity.
Qed.

(** Both users of the critical section decide on the pruned window. *)
Lemma limit_allowed_iff (current_time : Q) (self : RateLimiter) :
  let ts := prune current_time (time_window self) (request_timestamps self) in
  fst (limit current_time self) = Allowed
  ↔ (Z.of_nat (length ts) < max_requests self)%Z.
Proof.
  intros ts. unfold limit.
  destruct (Z.lt_ge_cases (Z.of_nat (length ts)) (max_requests self)) as [H | H].
  - rewrite acquire_granted by exact H. simpl. tauto.
  - rewrite acquire_refused by exact H. cbv zeta.
    unfold new_future.
    destruct (Queue.put _ _) as [r q]. simpl.
    split; [| lia].
    destruct r as [[] | | []]; discriminate.
Qed.

Lemma wait_for_token_acquired_iff (current_time : Q) (self : RateLimiter) :
  let ts := prune current_time (time_window self) (request_timestamps self) in
  fst (wait_for_token current_time self) = Acquired
  ↔ (Z.of_nat (length ts) < max_requests self)%Z.
Proof.
  intros ts. unfold wait_for_token.
  destruct (Z.lt_ge_cases (Z.of_nat (length ts)) (max_requests self)) as [H | H].
  - rewrite acquire_granted by exact H. simpl. tauto.
  - rewrite acquire_refused by exact H. simpl. fold ts.
    split; [| lia].
    destruct ts as [| oldest rest]; [discriminate |].
    destruct (Qltb _ _); discriminate.
Qed.

Lemma acquire_window (current_time : Q) (self : RateLimiter) :
  let ts := prune current_time (time_window self) (request_timestamps self) in
  request_timestamps (snd (acquire current_time self))
  = if fst (acquire current_time self) then ts ++ [current_time] else ts.
Proof.
  intros ts.
  destruct (Z.lt_ge_cases (Z.of_nat (length ts)) (max_requests self)) as [H | H].
  - rewrite acquire_granted by exact H. reflexivity.
  - rewrite acquire_refused by exact H. reflexivity.
Qed.

Lemma limit_window (current_time : Q) (self : RateLimiter) :
  request_timestamps (snd (limit current_time self))
  = request_timestamps (snd (acquire current_time self)).
Proof.
  unfold limit. destruct (acquire current_time self) as [[] self1]; simpl.
  - reflexivity.
  - destruct (Queue.put _ _) as [r q]. reflexivity.
Qed.

Lemma wait_for_token_window (current_time : Q) (self : RateLimiter) :
  request_timestamps (snd (wait_for_token current_time self))
  = request_timestamps (snd (acquire current_time self)).
Proof.
  unfold wait_for_token. destruct (acquire current_time self) as [[] self1]; simpl.
  - reflexivity.
  - destruct (request_timestamps self1) eqn:E; [exact E |].
    destruct (Qltb _ _); exact E.
Qed.

(** C5.  Pruning at [current_time] takes off the front of the window the
    timestamps older than [current_time - time_window] and nothing else:
    the window is the discarded timestamps, all of them stale, followed by
    what is kept, and the kept part does not start with a stale one; the
    timestamps that are not stale all survive, in their order; on a window
    in time order what is kept is exactly the timestamps that are not
    stale.  [limit] and [_wait_for_token] both test the capacity on the
    pruned window, and the window they leave behind is the pruned one,
    with [current_time] appended when a slot was taken. *)
Theorem prune_semantics (current_time : Q) (self : RateLimiter) :
  let tw := time_window self in
  let ts := request_timestamps self in
  let kept := prune current_time tw ts in
  (∃ old, ts = old ++ kept ∧ Forall (is_stale current_time tw) old)
  ∧ (∀ t rest, kept = t :: rest → ¬ is_stale current_time tw t)
  ∧ List.filter (is_fresh current_time tw) kept
    = List.filter (is_fresh current_time tw) ts
  ∧ (monotonic ts → kept = List.filter (is_fresh current_time tw) ts)
  ∧ (fst (limit current_time self) = Allowed
     ↔ (Z.of_nat (length kept) < max_requests self)%Z)
  ∧ (fst (wait_for_token current_time self) = Acquired
     ↔ (Z.of_nat (length kept) < max_requests self)%Z)
  ∧ request_timestamps (snd (limit current_time self))
    = (if fst (acquire current_time self)
       then kept ++ [current_time] else kept)
  ∧ request_timestamps (snd (wait_for_token current_time self))
    = (if fst (acquire current_time self)
       then kept ++ [current_time] else kept).
Proof.
  intros tw ts kept. repeat split.
  - apply prune_split.
  - intros t rest Hk Hs. apply prune_head in Hk. unfold is_stale in Hs. lra.
  - apply prune_keeps_fresh.
  - apply prune_monotonic.
  - apply limit_allowed_iff.
  - apply limit_allowed_iff.
  - apply wait_for_token_acquired_iff.
  - apply wait_for_token_acquired_iff.
  - rewrite limit_window. apply acquire_window.
  - rewrite wait_for_token_window. apply acquire_window.
Qed.

(** C6.  Pruning twice at the same clock reading leaves the window that
    pruning once leaves. *)
Theorem prune_twice (current_time time_window : Q) (ts : list Timestamp) :
  prune current_time time_window (prune current_time time_window ts)
  = prune current_time time_window ts.
Proof. apply prune_idempotent. Qed.

(** C7.  When a round of [_wait_for_token] finds the pruned window full,
    with [oldest] at its front, and [oldest + time_window - current_time]
    is positive, the task sleeps for the smaller of that quantity and one
    second; the delay is positive, at most one second, and does not go
    past the expiry of [oldest]. *)
Theorem releaser_pacing (current_time : Q) (self self1 : RateLimiter)
    (oldest : Timestamp) (rest : list Timestamp) :
  acquire current_time self = (false, self1) →
  request_timestamps self1 = oldest :: rest →
  (0 < oldest + time_window self - current_time)%Q →
  let delay := Qmin (oldest + time_window self - current_time) 1 in
  wait_for_token current_time self = (Sleep delay, self1)
  ∧ (0 < delay)%Q ∧ (delay <= 1)%Q
  ∧ (current_time + delay <= oldest + time_window self)%Q.
Proof.
  intros Hacq Hts Hpos delay.
  assert (Htw : time_window self1 = time_window self).
  { unfold acquire in Hacq.
    destruct (_ <? _)%Z; inversion Hacq; reflexivity. }
  split.
  - unfold wait_for_token. rewrite Hacq, Hts, Htw.
    apply Qltb_lt in Hpos. rewrite Hpos. reflexivity.
  - pose proof (Q.le_min_l (oldest + time_window self - current_time) 1).
    pose proof (Q.le_min_r (oldest + time_window self - current_time) 1).
    assert (0 < delay)%Q by (apply Q.min_glb_lt; lra).
    fold delay in H, H0. repeat split; lra.
Qed.

(** A full window of a limiter that admits anything at all has an oldest
    entry, so a failed round always finds one to pace itself on. *)
Lemma refused_has_oldest (current_time : Q) (self self1 : RateLimiter) :
  (0 < max_requests self)%Z →
  acquire current_time self = (false, self1) →
  ∃ oldest rest, request_timestamps self1 = oldest :: rest.
Proof.
  intros Hpos Hacq. unfold acquire in Hacq.
  destruct (Z.ltb_spec
              (Z.of_nat (length (prune current_time (time_window self)
                                   (request_timestamps self))))
              (max_requests self)) as [H | H]; [discriminate |].
  inversion Hacq; subst. simpl.
  destruct (prune _ _ _) as [| oldest rest]; [simpl in H; lia | eauto].
Qed.

(** C8.  A call to [limit] that finds a free slot after pruning returns
    at once.  The window it leaves is the pruned window with the clock
    reading appended at the end; the queue, the callers parked on it, the
    background task and the count of futures are what they were (nothing
    is enqueued or dequeued and no future is created), and so is the
    configuration. *)
Theorem fast_path_frame (current_time : Q) (self : RateLimiter) :
  let ts := prune current_time (time_window self) (request_timestamps self) in
  (Z.of_nat (length ts) < max_requests self)%Z →
  limit current_time self
  = (Allowed, set_request_timestamps (ts ++ [current_time]) self)
  ∧ fst (limit current_time self) = Allowed
  ∧ request_timestamps (snd (limit current_time self)) = ts ++ [current_time]
  ∧ request_queue (snd (limit current_time self)) = request_queue self
  ∧ Queue.items (request_queue (snd (limit current_time self)))
    = Queue.items (request_queue self)
  ∧ Queue.putters (request_queue (snd (limit current_time self)))
    = Queue.putters (request_queue self)
  ∧ queue_task (snd (limit current_time self)) = queue_task self
  ∧ futures_created (snd (limit current_time self)) = futures_created self
  ∧ max_requests (snd (limit current_time self)) = max_requests self
  ∧ time_window (snd (limit current_time self)) = time_window self
  ∧ max_queue_size (snd (limit current_time self)) = max_queue_size self.
Proof.
  intros ts H. unfold limit. rewrite acquire_granted by exact H.
  repeat split.
Qed.

(** ** The admission bound *)

Lemma count_in_app (lo width : Q) (l1 l2 : list Timestamp) :
  count_in lo width (l1 ++ l2) = count_in lo width l1 + count_in lo width l2.
Proof.
  induction l1 as [| t l1 IH]; simpl; [reflexivity |]. rewrite IH. lia.
Qed.

Lemma count_in_length (lo width : Q) (l : list Timestamp) :
  count_in lo width l ≤ length l.
Proof.
  induction l as [| t l IH]; simpl; [lia |].
  destruct (in_interval lo width t); lia.
Qed.

Lemma count_in_stale (now width lo : Q) (old : list Timestamp) :
  Forall (is_stale now width) old → (now - width <= lo)%Q →
  count_in lo width old = 0.
Proof.
  intros Hold Hlo. induction Hold as [| t old Ht _ IH]; simpl; [reflexivity |].
  rewrite IH. destruct (in_interval lo width t) eqn:E; [| reflexivity].
  apply in_interval_spec in E. unfold is_stale in Ht. lra.
Qed.

Lemma stale_later (t0 t1 width : Q) (old : list Timestamp) :
  (t0 <= t1)%Q →
  Forall (is_stale t0 width) old → Forall (is_stale t1 width) old.
Proof.
  intros Hle Hold. eapply Forall_impl; [exact Hold |].
  unfold is_stale. intros t Ht. lra.
Qed.

Lemma window_inv_later (t0 t1 : Q) (history : list Timestamp)
    (self : RateLimiter) :
  (t0 <= t1)%Q → window_inv t0 history self → window_inv t1 history self.
Proof.
  intros Hle (Hlen & (old & Heq & Hold) & Hcnt).
  split; [exact Hlen |]. split; [| exact Hcnt].
  exists old. split; [exact Heq | eapply stale_later; eassumption].
Qed.

Lemma window_inv_view (t0 : Q) (history : list Timestamp)
    (self self' : RateLimiter) :
  view self' = view self → window_inv t0 history self →
  window_inv t0 history self'.
Proof.
  unfold view, window_inv. intros [= -> -> ->]. tauto.
Qed.

Lemma acquire_config (current_time : Q) (self : RateLimiter) :
  let self1 := snd (acquire current_time self) in
  max_requests self1 = max_requests self
  ∧ time_window self1 = time_window self
  ∧ request_queue self1 = request_queue self
  ∧ queue_task self1 = queue_task self
  ∧ futures_created self1 = futures_created self.
Proof.
  unfold acquire. destruct (_ <? _)%Z; simpl; repeat split.
Qed.

(** The critical section keeps the window invariant, with the clock
    reading joining the history when a slot is taken. *)
Lemma acquire_inv (t0 current_time : Q) (history : list Timestamp)
    (self : RateLimiter) :
  (t0 <= current_time)%Q →
  window_inv t0 history self →
  window_inv current_time
    (history ++ if fst (acquire current_time self) then [current_time] else [])
    (snd (acquire current_time self)).
Proof.
  intros Hle (Hlen & (old & Heq & Hold) & Hcnt).
  pose proof (acquire_config current_time self) as (Hmr & Htw & _).
  pose proof (acquire_window current_time self) as Hw.
  cbv zeta in Hmr, Htw, Hw.
  destruct (prune_split current_time (time_window self)
              (request_timestamps self)) as (old' & Heq' & Hold').
  set (kept := prune current_time (time_window self) (request_timestamps self))
    in *.
  assert (Hall : Forall (is_stale current_time (time_window self)) (old ++ old')).
  { apply Forall_app. split; [eapply stale_later; eassumption | exact Hold']. }
  assert (Hhist : history = (old ++ old') ++ kept).
  { rewrite Heq, Heq' at 1. rewrite app_assoc. reflexivity. }
  unfold window_inv. rewrite Hmr, Htw, Hw.
  destruct (Z.lt_ge_cases (Z.of_nat (length kept)) (max_requests self))
    as [Hroom | Hfull].
  - rewrite (acquire_granted current_time self Hroom). simpl.
    split; [rewrite length_app; simpl; lia |]. split.
    + exists (old ++ old'). split; [| exact Hall].
      rewrite Hhist at 1. rewrite app_assoc. reflexivity.
    + intros lo. rewrite count_in_app. simpl.
      destruct (in_interval lo (time_window self) current_time) eqn:E.
      * apply in_interval_spec in E.
        rewrite Hhist, count_in_app.
        rewrite (count_in_stale current_time) by (try exact Hall; lra).
        pose proof (count_in_length lo (time_window self) kept). lia.
      * specialize (Hcnt lo). lia.
  - rewrite (acquire_refused current_time self Hfull). simpl.
    rewrite app_nil_r.
    split; [pose proof (prune_length current_time (time_window self)
                          (request_timestamps self)); fold kept in H; lia |].
    split; [| exact Hcnt].
    exists (old ++ old'). split; [exact Hhist | exact Hall].
Qed.

(** How a step acts on the [view]: either it goes through the critical
    section at its clock reading, admitting exactly when a slot is taken,
    or it leaves the view alone and admits nothing. *)
Lemma step_view (ev : Event) (self : RateLimiter) :
  let o := fst (step ev self) in
  let self' := snd (step ev self) in
  (∃ now, (ev = Call now ∨ ev = TaskTry now)
          ∧ view self' = view (snd (acquire now self))
          ∧ admitted [o] = if fst (acquire now self) then [now] else [])
  ∨ (view self' = view self ∧ admitted [o] = []).
Proof.
  destruct ev as [now | f | | now]; simpl.
  - left. exists now. split; [tauto |].
    unfold limit. destruct (acquire now self) as [[] self1]; simpl.
    + split; reflexivity.
    + destruct (Queue.put _ _) as [r q]. simpl. split; [reflexivity |].
      destruct r as [[] | | []]; reflexivity.
  - right. unfold limit_resume.
    destruct (Queue.resume_put f (request_queue self)) as [[r q] |]; simpl.
    + split; [reflexivity |]. destruct r as [[] | | []]; reflexivity.
    + split; reflexivity.
  - right. unfold process_queue_get.
    destruct (queue_task self); simpl; try (split; reflexivity).
    destruct (Queue.get (request_queue self)) as [[f | | e] q]; simpl;
      split; reflexivity.
  - unfold process_queue_try.
    destruct (queue_task self) as [| f | e]; simpl;
      try (right; split; reflexivity).
    left. exists now. split; [tauto |].
    unfold wait_for_token. destruct (acquire now self) as [[] self1]; simpl.
    + split; reflexivity.
    + destruct (request_timestamps self1) eqn:E; simpl.
      * unfold view. simpl. rewrite E. split; reflexivity.
      * destruct (Qltb _ _); simpl; split; reflexivity.
Qed.

Lemma admitted_cons (o : Obs) (os : list Obs) :
  admitted (o :: os) = admitted [o] ++ admitted os.
Proof.
  destruct o as [t [] | | | | | |]; reflexivity.
Qed.

Lemma run_cons (ev : Event) (evs : list Event) (self : RateLimiter) :
  run (ev :: evs) self
  = (fst (step ev self) :: fst (run evs (snd (step ev self))),
     snd (run evs (snd (step ev self)))).
Proof.
  simpl. destruct (step ev self) as [o self1]. simpl.
  destruct (run evs self1) as [os self2]. reflexivity.
Qed.

Lemma clock_readings_cons (t0 : Q) (ev : Event) (evs : list Event) :
  monotonic_from t0 (clock_readings (ev :: evs)) →
  ∃ t1, (t0 <= t1)%Q ∧ monotonic_from t1 (clock_readings evs)
        ∧ ∀ now, ev = Call now ∨ ev = TaskTry now → t1 = now.
Proof.
  destruct ev as [now | f | | now]; simpl.
  - intros [H1 H2]. exists now. repeat split; try assumption.
    intros ? [[= ->] | [=]]. reflexivity.
  - intros H. exists t0. repeat split; [lra | exact H |].
    intros ? [[=] | [=]].
  - intros H. exists t0. repeat split; [lra | exact H |].
    intros ? [[=] | [=]].
  - intros [H1 H2]. exists now. repeat split; try assumption.
    intros ? [[=] | [= ->]]. reflexivity.
Qed.

Lemma run_window_inv (evs : list Event) :
  ∀ (t0 : Q) (history : list Timestamp) (self : RateLimiter),
    window_inv t0 history self →
    monotonic_from t0 (clock_readings evs) →
    ∃ t1, window_inv t1 (history ++ admitted (fst (run evs self)))
            (snd (run evs self))
          ∧ max_requests (snd (run evs self)) = max_requests self
          ∧ time_window (snd (run evs self)) = time_window self.
Proof.
  induction evs as [| ev evs IH]; intros t0 history self Hinv Hmon.
  - simpl. rewrite app_nil_r. exists t0.
    split; [exact Hinv | split; reflexivity].
  - rewrite run_cons. cbn [fst snd].
    destruct (clock_readings_cons t0 ev evs Hmon) as (t1 & Hle & Hmon' & Hnow).
    rewrite admitted_cons, app_assoc.
    assert (Hinv' : window_inv t1 (history ++ admitted [fst (step ev self)])
                      (snd (step ev self))).
    { destruct (step_view ev self) as [(now & Hev & Hview & Hadm) | [Hview Hadm]].
      - rewrite Hadm. rewrite (Hnow now Hev) in *.
        eapply window_inv_view; [exact Hview |].
        apply (acquire_inv t0); assumption.
      - rewrite Hadm, app_nil_r.
        eapply window_inv_view; [exact Hview |].
        eapply window_inv_later; eassumption. }
    destruct (IH t1 _ _ Hinv' Hmon') as (t2 & Hinv2 & Hmr & Htw).
    exists t2. split; [exact Hinv2 |].
    rewrite Hmr, Htw.
    destruct (step_view ev self) as [(now & _ & Hview & _) | [Hview _]];
      unfold view in Hview; injection Hview as H1 H2 _; rewrite H1, H2.
    + pose proof (acquire_config now self) as (? & ? & _). tauto.
    + tauto.
Qed.

Lemma init_window_inv (mr : Z) (tw : Q) (mqs : Z) (self0 : RateLimiter) (t0 : Q) :
  RateLimiter_init mr tw mqs = inr self0 →
  window_inv t0 [] self0 ∧ max_requests self0 = mr ∧ time_window self0 = tw.
Proof.
  unfold RateLimiter_init, Deque.new.
  destruct (Z.ltb_spec mr 0) as [H | H]; [discriminate |].
  intros [= <-]. unfold window_inv. simpl.
  repeat split; try lia.
  exists []. split; [reflexivity | constructor].
Qed.

Lemma monotonic_start (readings : list Q) :
  monotonic readings → ∃ t0, monotonic_from t0 readings.
Proof.
  destruct readings as [| t rest]; simpl; intros H.
  - exists 0%Q. exact I.
  - exists t. split; [lra | exact H].
Qed.

(** The window stays within its bound whatever the clock does. *)
Lemma acquire_length (current_time : Q) (self : RateLimiter) :
  (Z.of_nat (length (request_timestamps self)) <= max_requests self)%Z →
  (Z.of_nat (length (request_timestamps (snd (acquire current_time self))))
   <= max_requests self)%Z.
Proof.
  intros Hlen. rewrite acquire_window.
  pose proof (prune_length current_time (time_window self)
                (request_timestamps self)) as Hp.
  destruct (Z.lt_ge_cases
              (Z.of_nat (length (prune current_time (time_window self)
                                   (request_timestamps self))))
              (max_requests self)) as [Hroom | Hfull].
  - rewrite (acquire_granted current_time self Hroom). simpl.
    rewrite length_app. simpl. lia.
  - rewrite (acquire_refused current_time self Hfull). simpl. lia.
Qed.

Lemma run_length (evs : list Event) :
  ∀ self : RateLimiter,
    (Z.of_nat (length (request_timestamps self)) <= max_requests self)%Z →
    (Z.of_nat (length (request_timestamps (snd (run evs self))))
     <= max_requests (snd (run evs self)))%Z
    ∧ max_requests (snd (run evs self)) = max_requests self.
Proof.
  induction evs as [| ev evs IH]; intros self Hlen.
  - simpl. split; [exact Hlen | reflexivity].
  - rewrite run_cons. cbn [snd].
    assert (Hstep : (Z.of_nat (length (request_timestamps (snd (step ev self))))
                     <= max_requests (snd (step ev self)))%Z
                    ∧ max_requests (snd (step ev self)) = max_requests self).
    { destruct (step_view ev self) as [(now & _ & Hview & _) | [Hview _]];
        unfold view in Hview; injection Hview as Hmr _ Hts;
        rewrite Hmr, Hts.
      - pose proof (acquire_config now self) as (Hmr' & _).
        cbv zeta in Hmr'. rewrite Hmr'.
        split; [apply acquire_length, Hlen | reflexivity].
      - split; [exact Hlen | reflexivity]. }
    destruct Hstep as [Hlen1 Hmr1].
    destruct (IH _ Hlen1) as [Hlen2 Hmr2].
    split; [exact Hlen2 | congruence].
Qed.

(** C1.  Take a limiter as [__init__] builds it and run any schedule of
    [limit] calls, resumptions and steps of the background task.
    Afterwards the window holds at most [max_requests] timestamps,
    whatever the clock read.  If moreover the clock readings of the
    schedule never decrease, no closed interval of length [time_window]
    contains the timestamps of more than [max_requests] admissions, be
    they fast-path returns of [limit] or futures resolved by the task.
    (Every prefix of a schedule is a schedule, so this holds after each
    operation.) *)
Theorem admission_bound (mr : Z) (tw : Q) (mqs : Z) (self0 : RateLimiter)
    (evs : list Event) :
  RateLimiter_init mr tw mqs = inr self0 →
  (Z.of_nat (length (request_timestamps (snd (run evs self0)))) <= mr)%Z
  ∧ (monotonic (clock_readings evs) →
     ∀ lo,
       (Z.of_nat (count_in lo tw (admitted (fst (run evs self0)))) <= mr)%Z).
Proof.
  intros Hinit. split.
  - destruct (init_window_inv mr tw mqs self0 0%Q Hinit)
      as ((Hlen0 & _) & Hmr & _).
    destruct (run_length evs self0 Hlen0) as [Hlen Hmr'].
    rewrite Hmr', Hmr in Hlen. exact Hlen.
  - intros Hmon.
    destruct (monotonic_start _ Hmon) as (t0 & Hmon0).
    destruct (init_window_inv mr tw mqs self0 t0 Hinit) as (Hinv & Hmr & Htw).
    destruct (run_window_inv evs t0 [] self0 Hinv Hmon0)
      as (t1 & (_ & _ & Hcnt) & Hmr' & Htw').
    intros lo. specialize (Hcnt lo).
    rewrite Hmr', Htw', Hmr, Htw in Hcnt. exact Hcnt.
Qed.

(** Two requests a minute: two calls pass, a third is queued, the task
    takes it and lets it through once the first two have left the
    window. *)
Lemma admission_bound_witness :
  ∃ self0,
    RateLimiter_init 2 60 1 = inr self0
    ∧ admitted (fst (run [Call 0; Call 0; Call 0; TaskGet; TaskTry 30;
                          TaskTry 61; Call 61; Call 62] self0))
      = [0; 0; 61; 61]%Q
    ∧ request_timestamps
        (snd (run [Call 0; Call 0; Call 0; TaskGet; TaskTry 30;
                   TaskTry 61; Call 61; Call 62] self0))
      = [61; 61]%Q
    ∧ (Z.of_nat
         (length
            (request_timestamps
               (snd (run [Call 0; Call 0; Call 0; TaskGet; TaskTry 30;
                          TaskTry 61; Call 61; Call 62] self0)))) <= 2)%Z
    ∧ ∀ lo, (Z.of_nat
               (count_in lo 60
                  (admitted (fst (run [Call 0; Call 0; Call 0; TaskGet;
                                       TaskTry 30; TaskTry 61; Call 61;
                                       Call 62] self0)))) <= 2)%Z.
Proof.
  eexists. split; [reflexivity |]. split; [reflexivity |].
  split; [reflexivity |].
  pose proof (admission_bound 2 60 1 _
                [Call 0; Call 0; Call 0; TaskGet; TaskTry 30;
                 TaskTry 61; Call 61; Call 62] eq_refl) as [Hlen Hcnt].
  split; [exact Hlen |].
  apply Hcnt. simpl. repeat split; lra.
Defined.

(** The interval bound does not survive a clock that steps back.  Two
    requests per ten seconds; the clock reads 100, 100, 111 and then 101.
    All four calls to [limit] return, because the prune at 111 empties the
    window; three of the recorded timestamps lie in [[100, 110]], one more
    than [max_requests]. *)
Lemma backwards_clock_overshoots :
  ∃ self0,
    RateLimiter_init 2 10 100 = inr self0
    ∧ fst (run [Call 100; Call 100; Call 111; Call 101] self0)
      = [Limit 100 Allowed; Limit 100 Allowed;
         Limit 111 Allowed; Limit 101 Allowed]
    ∧ ¬ monotonic (clock_readings [Call 100; Call 100; Call 111; Call 101])
    ∧ ¬ (∀ lo,
           (Z.of_nat
              (count_in lo 10
                 (admitted
                    (fst (run [Call 100; Call 100; Call 111; Call 101]
                            self0)))) <= 2)%Z).
Proof.
  eexists. split; [reflexivity |]. split; [reflexivity |]. split.
  - simpl. intros (_ & _ & H & _). revert H. unfold Qle. simpl. lia.
  - intros H. specialize (H 100%Q). vm_compute in H. apply H. reflexivity.
Qed.

(** ** Enqueueing never rejects *)

Lemma put_nowait_raises_iff (item : Future) (q : Queue.t) :
  (∃ e, Queue.put_nowait item q = inl e) ↔ Queue.full q = true.
Proof.
  unfold Queue.put_nowait. destruct (Queue.full q); split;
    intros H; eauto; try discriminate.
  destruct H as [e H]. discriminate.
Qed.

(** [await put] parks the caller on a full queue; it has no path that
    raises. *)
Lemma put_never_raises (item : Future) (q : Queue.t) :
  fst (Queue.put item q) = Ready tt ∧ Queue.full q = false
  ∨ fst (Queue.put item q) = Suspend ∧ Queue.full q = true.
Proof.
  unfold Queue.put, Queue.put_nowait.
  destruct (Queue.full q); simpl; tauto.
Qed.

Lemma resume_put_never_raises (item : Future) (q : Queue.t) (r : Await unit)
    (q' : Queue.t) :
  Queue.resume_put item q = Some (r, q') → r = Ready tt ∨ r = Suspend.
Proof.
  unfold Queue.resume_put.
  destruct (bool_decide _); [| discriminate].
  destruct (Queue.full q) eqn:E; [intros [= <- _]; tauto |].
  unfold Queue.put_nowait.
  match goal with
  | |- context [Queue.full ?q0] => change (Queue.full q0) with (Queue.full q)
  end.
  rewrite E. intros [= <- _]. tauto.
Qed.

Lemma limit_outcome (current_time : Q) (self : RateLimiter) :
  fst (limit current_time self) = Allowed
  ∨ (∃ future, fst (limit current_time self) = Queued future)
  ∨ (∃ future, fst (limit current_time self) = Blocked future).
Proof.
  unfold limit. destruct (acquire current_time self) as [[] self1]; simpl;
    [tauto |].
  destruct (put_never_raises (futures_created self1) (request_queue self1))
    as [[H _] | [H _]];
    destruct (Queue.put _ _) as [r q]; simpl in *; subst r; simpl; eauto.
Qed.

Lemma limit_resume_outcome (future : Future) (self : RateLimiter)
    (o : Outcome) (self' : RateLimiter) :
  limit_resume future self = Some (o, self') →
  o = Queued future ∨ o = Blocked future.
Proof.
  unfold limit_resume.
  destruct (Queue.resume_put future (request_queue self)) as [[r q] |] eqn:E;
    [| discriminate].
  intros [= <- _].
  destruct (resume_put_never_raises _ _ _ _ E) as [-> | ->]; simpl; tauto.
Qed.

Lemma step_rejections (ev : Event) (self : RateLimiter) :
  rejections [fst (step ev self)] = 0.
Proof.
  destruct ev as [now | f | | now]; simpl.
  - destruct (limit_outcome now self) as [H | [[f H] | [f H]]];
      destruct (limit now self) as [o self']; simpl in *; subst o; reflexivity.
  - destruct (limit_resume f self) as [[o self'] |] eqn:E; [| reflexivity].
    destruct (limit_resume_outcome _ _ _ _ E) as [-> | ->]; reflexivity.
  - unfold process_queue_get. destruct (queue_task self); try reflexivity.
    destruct (Queue.get _) as [[] q]; reflexivity.
  - unfold process_queue_try. destruct (queue_task self); try reflexivity.
    destruct (wait_for_token now self) as [[] self']; reflexivity.
Qed.

Lemma rejections_cons (o : Obs) (os : list Obs) :
  rejections (o :: os) = rejections [o] + rejections os.
Proof.
  destruct o as [t [] | [] | | | | |]; reflexivity.
Qed.

Lemma run_rejections (evs : list Event) (self : RateLimiter) :
  rejections (fst (run evs self)) = 0.
Proof.
  revert self. induction evs as [| ev evs IH]; intros self; [reflexivity |].
  rewrite run_cons. cbn [fst]. rewrite rejections_cons, step_rejections, IH.
  reflexivity.
Qed.

(** C10.  In any state of the limiter a call to [limit] returns
    ([Allowed]) or suspends, in [put] on a full queue or on its future
    once enqueued: [put] never raises [QueueFull], so the handler that
    answers 429 is never entered.  Nor does it run later: no schedule,
    from any state, observes a rejection. *)
Theorem rejection_unreachable (current_time : Q) (self : RateLimiter) :
  (∀ future, fst (Queue.put future (request_queue self)) ≠ Raise QueueFull)
  ∧ (fst (limit current_time self) = Allowed
     ∨ (∃ future, fst (limit current_time self) = Queued future)
     ∨ (∃ future, fst (limit current_time self) = Blocked future))
  ∧ (∀ status_code detail,
       fst (limit current_time self) ≠ Rejected status_code detail)
  ∧ (∀ evs, rejections (fst (run evs self)) = 0).
Proof.
  split; [| split; [| split]].
  - intros future.
    destruct (put_never_raises future (request_queue self)) as [[H _] | [H _]];
      rewrite H; discriminate.
  - apply limit_outcome.
  - intros status_code detail.
    destruct (limit_outcome current_time self) as [H | [[f H] | [f H]]];
      rewrite H; discriminate.
  - intros evs. apply run_rejections.
Qed.

(** ** What a full queue does to a caller *)

(** C2.  One request a minute and room for one waiter.  After a first call
    is let through and a second is queued, the window and the queue are
    both full; a third call at the same instant is not answered with a
    429: it is suspended inside [put], where it stays until the task takes
    the queued future. *)
Theorem full_queue_suspends_caller :
  ∃ self0,
    RateLimiter_init 1 60 1 = inr self0
    ∧ fst (run [Call 0; Call 0] self0) = [Limit 0 Allowed; Limit 0 (Queued 0)]
    ∧ Queue.items (request_queue (snd (run [Call 0; Call 0] self0))) = [0]
    ∧ Queue.full (request_queue (snd (run [Call 0; Call 0] self0))) = true
    ∧ fst (limit 0 (snd (run [Call 0; Call 0] self0))) = Blocked 1
    ∧ Queue.putters
        (request_queue (snd (limit 0 (snd (run [Call 0; Call 0] self0)))))
      = [1]
    ∧ fst (run [Call 0; Call 0; Call 0; ResumePut 1; TaskGet; ResumePut 1]
             self0)
      = [Limit 0 Allowed; Limit 0 (Queued 0); Limit 0 (Blocked 1);
         Resumed (Blocked 1); Taken 0; Resumed (Queued 1)].
Proof.
  eexists. repeat split.
Qed.

(** C4.  One request a second and a queue of size zero.  The first call at
    time 0 is let through; the second call at time 0 is not rejected: a
    queue built with [maxsize=0] is unbounded, so the caller's future goes
    into the queue and the caller is suspended on it. *)
Theorem zero_capacity_queue_parks :
  ∃ self0,
    RateLimiter_init 1 1 0 = inr self0
    ∧ fst (run [Call 0; Call 0] self0) = [Limit 0 Allowed; Limit 0 (Queued 0)]
    ∧ Queue.items (request_queue (snd (run [Call 0; Call 0] self0))) = [0]
    ∧ Queue.full (request_queue (snd (run [Call 0; Call 0] self0))) = false
    ∧ rejections (fst (run [Call 0; Call 0] self0)) = 0.
Proof.
  eexists. repeat split.
Qed.

(** What does hold of the queue: with a positive [max_queue_size] it never
    holds more than that many futures (further callers wait in [put]). *)
Lemma step_queue_bound (ev : Event) (self : RateLimiter) :
  let q := request_queue self in
  let q' := request_queue (snd (step ev self)) in
  Queue.maxsize q' = Queue.maxsize q
  ∧ ((0 < Queue.maxsize q)%Z →
     (Z.of_nat (Queue.qsize q) <= Queue.maxsize q)%Z →
     (Z.of_nat (Queue.qsize q') <= Queue.maxsize q)%Z).
Proof.
  assert (Hput : ∀ item q q1, Queue.put_nowait item q = inr q1 →
            Queue.maxsize q1 = Queue.maxsize q
            ∧ ((0 < Queue.maxsize q)%Z →
               (Z.of_nat (Queue.qsize q1) <= Queue.maxsize q)%Z)).
  { intros item q q1. unfold Queue.put_nowait, Queue.full.
    destruct (Z.leb_spec (Queue.maxsize q) 0).
    - intros [= <-]. simpl. split; [reflexivity | lia].
    - destruct (Z.leb_spec (Queue.maxsize q) (Z.of_nat (Queue.qsize q)));
        [discriminate |].
      intros [= <-]. unfold Queue.qsize in *. simpl.
      rewrite length_app. simpl. split; [reflexivity | lia]. }
  destruct ev as [now | f | | now]; simpl.
  - unfold limit.
    pose proof (acquire_config now self) as (_ & _ & Hq & _).
    destruct (acquire now self) as [[] self1]; simpl in *.
    + rewrite Hq. tauto.
    + rewrite <- Hq. unfold Queue.put.
      destruct (Queue.full (request_queue self1)); simpl; [tauto |].
      destruct (Queue.put_nowait _ _) as [e | q1] eqn:E; simpl; [tauto |].
      apply Hput in E. tauto.
  - unfold limit_resume, Queue.resume_put.
    destruct (bool_decide _); simpl; [| tauto].
    destruct (Queue.full (request_queue self)); simpl; [tauto |].
    destruct (Queue.put_nowait _ _) as [e | q1] eqn:E; simpl; [tauto |].
    apply Hput in E. simpl in E. tauto.
  - unfold process_queue_get.
    destruct (queue_task self); simpl; try tauto.
    unfold Queue.get, Queue.qsize.
    destruct (Queue.items (request_queue self)) eqn:E; simpl; rewrite ?E;
      simpl; split; (reflexivity || lia).
  - unfold process_queue_try.
    destruct (queue_task self); simpl; try tauto.
    unfold wait_for_token.
    pose proof (acquire_config now self) as (_ & _ & Hq & _).
    destruct (acquire now self) as [[] self1]; simpl in *.
    + rewrite Hq. tauto.
    + destruct (request_timestamps self1); simpl; [rewrite Hq; tauto |].
      destruct (Qltb _ _); simpl; rewrite Hq; tauto.
Qed.

Lemma queue_bounded_when_positive (mr : Z) (tw : Q) (mqs : Z)
    (self0 : RateLimiter) (evs : list Event) :
  RateLimiter_init mr tw mqs = inr self0 →
  (0 < mqs)%Z →
  (Z.of_nat (Queue.qsize (request_queue (snd (run evs self0)))) <= mqs)%Z.
Proof.
  intros Hinit Hpos.
  assert (H0 : Queue.maxsize (request_queue self0) = mqs
               ∧ (Z.of_nat (Queue.qsize (request_queue self0)) <= mqs)%Z).
  { unfold RateLimiter_init in Hinit. destruct (Deque.new mr); [discriminate |].
    injection Hinit as <-. unfold Queue.qsize. simpl.
    split; [reflexivity | lia]. }
  clear Hinit. revert self0 H0.
  induction evs as [| ev evs IH]; intros self [Hm Hq]; [exact Hq |].
  rewrite run_cons. cbn [snd]. apply IH.
  pose proof (step_queue_bound ev self) as [H1 H2]. cbv zeta in H1, H2.
  rewrite Hm in *. split; [exact H1 | apply H2; assumption].
Qed.

(** ** First come, first served *)

Lemma pool_fresh_enq (n : nat) (enq waiting : list Future) :
  pool_inv n enq waiting → pool_inv (S n) (enq ++ [n]) waiting.
Proof.
  intros [Hnd Hlt]. apply NoDup_app in Hnd as (Hnd1 & Hdisj & Hnd2).
  apply Forall_app in Hlt as [Hlt1 Hlt2].
  rewrite Forall_forall in Hlt1, Hlt2.
  split.
  - apply NoDup_app. split; [| split; [| exact Hnd2]].
    + apply NoDup_app. split; [exact Hnd1 |]. split; [| apply NoDup_singleton].
      intros x Hx Hn. apply list_elem_of_singleton in Hn. subst x.
      specialize (Hlt1 n Hx). lia.
    + intros x Hx. apply elem_of_app in Hx as [Hx | Hx]; [auto |].
      apply list_elem_of_singleton in Hx. subst x.
      intros Hn. specialize (Hlt2 n Hn). lia.
  - rewrite Forall_forall. intros x Hx.
    rewrite !elem_of_app, list_elem_of_singleton in Hx.
    destruct Hx as [[Hx | ->] | Hx]; [| lia |].
    + specialize (Hlt1 x Hx). lia.
    + specialize (Hlt2 x Hx). lia.
Qed.

Lemma pool_fresh_wait (n : nat) (enq waiting : list Future) :
  pool_inv n enq waiting → pool_inv (S n) enq (waiting ++ [n]).
Proof.
  intros [Hnd Hlt]. rewrite Forall_forall in Hlt.
  split.
  - rewrite app_assoc. apply NoDup_app. split; [exact Hnd |].
    split; [| apply NoDup_singleton].
    intros x Hx Hn. apply list_elem_of_singleton in Hn. subst x.
    specialize (Hlt n Hx). lia.
  - rewrite Forall_forall. intros x Hx.
    rewrite app_assoc, elem_of_app, list_elem_of_singleton in Hx.
    destruct Hx as [Hx | ->]; [| lia]. specialize (Hlt x Hx). lia.
Qed.

Lemma pool_move (n : nat) (enq waiting : list Future) (f : Future) :
  pool_inv n enq waiting → f ∈ waiting →
  pool_inv n (enq ++ [f]) (filter (λ x, x ≠ f) waiting).
Proof.
  intros [Hnd Hlt] Hf. apply NoDup_app in Hnd as (Hnd1 & Hdisj & Hnd2).
  rewrite Forall_forall in Hlt.
  split.
  - apply NoDup_app. split; [| split; [| apply NoDup_filter, Hnd2]].
    + apply NoDup_app. split; [exact Hnd1 |]. split; [| apply NoDup_singleton].
      intros x Hx Hn. apply list_elem_of_singleton in Hn. subst x.
      exact (Hdisj f Hx Hf).
    + intros x Hx Hn. apply list_elem_of_filter in Hn as [Hne Hn].
      apply elem_of_app in Hx as [Hx | Hx]; [exact (Hdisj x Hx Hn) |].
      apply list_elem_of_singleton in Hx. contradiction.
  - rewrite Forall_forall. intros x Hx. apply Hlt.
    rewrite !elem_of_app, list_elem_of_singleton, list_elem_of_filter in Hx.
    rewrite elem_of_app.
    destruct Hx as [[Hx | ->] | [_ Hx]]; tauto.
Qed.

Lemma enqueued_cons (o : Obs) (os : list Obs) :
  enqueued (o :: os) = enqueued [o] ++ enqueued os.
Proof.
  destruct o as [t [] | [] | | | | |]; reflexivity.
Qed.

Lemma released_cons (o : Obs) (os : list Obs) :
  released (o :: os) = released [o] ++ released os.
Proof.
  destruct o; reflexivity.
Qed.

(** Putting through [put_nowait] into a queue that is not full. *)
Lemma put_nowait_items (item : Future) (q : Queue.t) :
  Queue.full q = false →
  Queue.put_nowait item q
  = inr {| Queue.maxsize := Queue.maxsize q;
           Queue.items := Queue.items q ++ [item];
           Queue.putters := Queue.putters q |}.
Proof.
  intros H. unfold Queue.put_nowait. rewrite H. reflexivity.
Qed.

Lemma step_fifo_inv (ev : Event) (enq rel : list Future) (self : RateLimiter) :
  fifo_inv enq rel self →
  fifo_inv (enq ++ enqueued [fst (step ev self)])
           (rel ++ released [fst (step ev self)])
           (snd (step ev self)).
Proof.
  intros [(mid & Heq & Hmid) Hpool].
  destruct ev as [now | f | | now]; simpl.
  - (* a call to [limit] *)
    unfold limit.
    pose proof (acquire_config now self) as (_ & _ & Hq & Hk & Hn).
    destruct (acquire now self) as [[] self1]; simpl in *.
    + rewrite !app_nil_r. split; [| rewrite Hq, Hn; exact Hpool].
      exists mid. rewrite Hq, Hk. tauto.
    + rewrite <- Hq, <- Hk, <- Hn in *. clear Hq Hk Hn.
      unfold Queue.put.
      destruct (Queue.full (request_queue self1)) eqn:Hfull; simpl.
      * rewrite !app_nil_r. split; [exists mid; tauto |].
        apply pool_fresh_wait, Hpool.
      * rewrite put_nowait_items by exact Hfull. simpl. rewrite app_nil_r.
        split; [| apply pool_fresh_enq, Hpool].
        exists mid. split; [| exact Hmid].
        rewrite Heq, <- !app_assoc. reflexivity.
  - (* a caller parked in [put] is resumed *)
    unfold limit_resume, Queue.resume_put.
    destruct (bool_decide_reflect (f ∈ Queue.putters (request_queue self)))
      as [Hin | Hout]; simpl.
    + destruct (Queue.full (request_queue self)) eqn:Hfull; simpl.
      * rewrite !app_nil_r. split; [exists mid; tauto | exact Hpool].
      * unfold Queue.put_nowait.
        match goal with
        | |- context [Queue.full ?q0] =>
            change (Queue.full q0) with (Queue.full (request_queue self))
        end.
        rewrite Hfull. simpl. rewrite app_nil_r.
        split; [| apply pool_move; assumption].
        exists mid. split; [| exact Hmid].
        rewrite Heq, <- !app_assoc. reflexivity.
    + rewrite !app_nil_r. split; [exists mid; tauto | exact Hpool].
  - (* the task takes the next future *)
    unfold process_queue_get.
    destruct (queue_task self) as [| g | e] eqn:Hk; simpl;
      try (rewrite !app_nil_r; split;
           [exists mid; rewrite Hk; tauto | exact Hpool]).
    unfold Queue.get.
    destruct (Queue.items (request_queue self)) as [| g rest] eqn:Hitems; simpl.
    + rewrite !app_nil_r.
      split; [exists mid; rewrite Hk, Hitems; tauto | exact Hpool].
    + rewrite !app_nil_r. split; [| exact Hpool].
      exists [g]. subst mid. split; [exact Heq | reflexivity].
  - (* the task tries for a token *)
    unfold process_queue_try.
    destruct (queue_task self) as [| g | e] eqn:Hk; simpl;
      try (rewrite !app_nil_r; split;
           [exists mid; rewrite Hk; tauto | exact Hpool]).
    unfold wait_for_token.
    pose proof (acquire_config now self) as (_ & _ & Hq & Hk' & Hn).
    destruct (acquire now self) as [[] self1]; simpl in *.
    + rewrite app_nil_r. split; simpl; rewrite Hq, ?Hn; [| exact Hpool].
      exists []. subst mid. split; [| reflexivity].
      rewrite Heq, <- !app_assoc. reflexivity.
    + destruct (request_timestamps self1) as [| oldest rest]; simpl.
      * rewrite !app_nil_r. split; simpl; rewrite Hq, ?Hn; [| exact Hpool].
        exists mid. subst mid. split; [exact Heq | simpl; lia].
      * destruct (Qltb _ _); simpl; rewrite !app_nil_r;
          (split; simpl; rewrite Hq, ?Hn, ?Hk', ?Hk;
           [exists mid; tauto | exact Hpool]).
Qed.

Lemma run_fifo_inv (evs : list Event) :
  ∀ (enq rel : list Future) (self : RateLimiter),
    fifo_inv enq rel self →
    fifo_inv (enq ++ enqueued (fst (run evs self)))
             (rel ++ released (fst (run evs self)))
             (snd (run evs self)).
Proof.
  induction evs as [| ev evs IH]; intros enq rel self Hinv.
  - simpl. rewrite !app_nil_r. exact Hinv.
  - rewrite run_cons. cbn [fst snd].
    rewrite enqueued_cons, released_cons, !app_assoc.
    apply IH, step_fifo_inv, Hinv.
Qed.

Lemma init_fifo_inv (mr : Z) (tw : Q) (mqs : Z) (self0 : RateLimiter) :
  RateLimiter_init mr tw mqs = inr self0 → fifo_inv [] [] self0.
Proof.
  unfold RateLimiter_init. destruct (Deque.new mr); [discriminate |].
  intros [= <-]. split; simpl.
  - exists []. split; reflexivity.
  - split; simpl; constructor.
Qed.

(** In a list without repetition the place of an element is unique. *)
Lemma split_unique (b : Future) (x1 y1 x2 y2 : list Future) :
  NoDup (x1 ++ b :: y1) → x1 ++ b :: y1 = x2 ++ b :: y2 → x1 = x2.
Proof.
  revert x2. induction x1 as [| a x1 IH]; intros x2 Hnd Heq.
  - destruct x2 as [| a' x2]; [reflexivity |].
    simpl in *. injection Heq as <- Heq. subst y1.
    apply NoDup_cons in Hnd as [Hn _]. exfalso. apply Hn.
    apply elem_of_app. right. left.
  - destruct x2 as [| a' x2].
    + simpl in *. injection Heq as -> Heq.
      apply NoDup_cons in Hnd as [Hn _]. exfalso. apply Hn.
      apply elem_of_app. right. left.
    + simpl in *. injection Heq as <- Heq. f_equal.
      apply NoDup_cons in Hnd as [_ Hnd]. apply IH; assumption.
Qed.

Lemma prefix_keeps_order (a b : Future) (rel rest : list Future) :
  NoDup (rel ++ rest) → before a b (rel ++ rest) → b ∈ rel → before a b rel.
Proof.
  intros Hnd (l1 & l2 & l3 & Heq) Hb.
  apply list_elem_of_split in Hb as (r1 & r2 & ->).
  assert (Hr : r1 = l1 ++ a :: l2).
  { apply (split_unique b r1 (r2 ++ rest) (l1 ++ a :: l2) l3).
    - rewrite <- app_assoc in Hnd. exact Hnd.
    - rewrite <- app_assoc in Heq. simpl in Heq. rewrite Heq.
      rewrite <- app_assoc. reflexivity. }
  exists l1, l2, r2. rewrite Hr, <- app_assoc. reflexivity.
Qed.

(** C3.  Take a limiter as [__init__] builds it and run any schedule.  The
    futures that entered the queue are, in the order they entered: the
    futures the task has resolved, in the order it resolved them; then at
    most one future that the task has taken and not resolved, which is the
    one it is waiting for a token for; then the queue.  No future is
    enqueued twice.  Hence, whenever [a] entered the queue before [b] and
    [b] has been resolved, [a] was resolved before [b]. *)
Theorem fifo_release (mr : Z) (tw : Q) (mqs : Z) (self0 : RateLimiter)
    (evs : list Event) :
  RateLimiter_init mr tw mqs = inr self0 →
  let os := fst (run evs self0) in
  let self := snd (run evs self0) in
  (∃ mid, enqueued os
          = released os ++ mid ++ Queue.items (request_queue self)
          ∧ length mid ≤ 1
          ∧ ∀ future, future ∈ in_service self → mid = [future])
  ∧ NoDup (enqueued os)
  ∧ ∀ a b, before a b (enqueued os) → b ∈ released os →
           before a b (released os).
Proof.
  intros Hinit os self.
  pose proof (run_fifo_inv evs [] [] self0 (init_fifo_inv _ _ _ _ Hinit))
    as [(mid & Heq & Hmid) [Hnd _]].
  simpl in Heq, Hnd. fold os self in Heq, Hmid, Hnd.
  apply NoDup_app in Hnd as (Hnd & _ & _).
  split; [| split; [exact Hnd |]].
  - exists mid. split; [exact Heq |]. unfold in_service.
    destruct (queue_task self) as [| g | e]; subst; simpl.
    + split; [lia |]. intros f Hf. inversion Hf.
    + split; [lia |]. intros f Hf. apply list_elem_of_singleton in Hf.
      subst. reflexivity.
    + split; [exact Hmid |]. intros f Hf. inversion Hf.
  - intros a b Hab Hb. rewrite Heq in Hab, Hnd.
    eapply prefix_keeps_order; eassumption.
Qed.

(** ** The per-user registry *)

Lemma get_limiter_present (user_id : string) (w : World) (r : Ref) :
  limiters (registry w) !! user_id = Some r → get_limiter user_id w = (inr r, w).
Proof.
  intros H. unfold get_limiter. cbv zeta. rewrite H. reflexivity.
Qed.

Lemma get_limiter_absent (user_id : string) (w : World) (limiter : RateLimiter) :
  limiters (registry w) !! user_id = None →
  RateLimiter_init (user_max_requests (registry w))
    (user_time_window (registry w)) (user_max_queue_size (registry w))
  = inr limiter →
  get_limiter user_id w
  = (inr (length (heap w)),
     {| registry :=
          set_limiters (<[user_id := length (heap w)]> (limiters (registry w)))
            (registry w);
        heap := heap w ++ [limiter] |}).
Proof.
  intros H Hinit. unfold get_limiter. cbv zeta. rewrite H, Hinit. reflexivity.
Qed.

Lemma get_limiter_stored (user_id : string) (w : World) (r : Ref) :
  fst (get_limiter user_id w) = inr r →
  limiters (registry (snd (get_limiter user_id w))) !! user_id = Some r.
Proof.
  unfold get_limiter. cbv zeta.
  destruct (limiters (registry w) !! user_id) as [r' |] eqn:E; simpl.
  - intros [= <-]. exact E.
  - destruct (RateLimiter_init _ _ _) as [e | limiter]; simpl; [discriminate |].
    intros [= <-]. apply lookup_insert_eq.
Qed.

(** What every operation keeps: the configuration, the invariant, and the
    entries the registry already has. *)
Lemma apply_op_keeps (op : Op) (w : World) :
  registry_inv w →
  registry_inv (apply_op op w)
  ∧ user_max_requests (registry (apply_op op w)) = user_max_requests (registry w)
  ∧ user_time_window (registry (apply_op op w)) = user_time_window (registry w)
  ∧ user_max_queue_size (registry (apply_op op w))
    = user_max_queue_size (registry w)
  ∧ ∀ k r, limiters (registry w) !! k = Some r →
           limiters (registry (apply_op op w)) !! k = Some r.
Proof.
  intros [Hdom Hinj]. destruct op as [user_id | r0 ev]; simpl.
  - unfold get_limiter. cbv zeta.
    destruct (limiters (registry w) !! user_id) as [r' |] eqn:E; simpl.
    { repeat split; auto. }
    destruct (RateLimiter_init _ _ _) as [e | limiter]; simpl.
    { repeat split; auto. }
    split; [split |]; simpl.
    + intros k r. rewrite length_app. simpl. rewrite lookup_insert.
      case_decide; [intros [= <-]; lia |].
      intros Hl. specialize (Hdom k r Hl). lia.
    + intros k1 k2 r. rewrite !lookup_insert.
      repeat case_decide; subst; try congruence.
      * intros [= <-] Hl. specialize (Hdom k2 _ Hl). lia.
      * intros Hl [= <-]. specialize (Hdom k1 _ Hl). lia.
      * apply Hinj.
    + repeat split. intros k r Hl. rewrite lookup_insert_ne; [exact Hl |].
      intros ->. congruence.
  - unfold step_at.
    destruct (heap w !! r0) as [limiter |]; simpl.
    + destruct (step ev limiter) as [o limiter']. simpl.
      split; [split; simpl |].
      * intros k r Hl. rewrite length_insert. eauto.
      * exact Hinj.
      * repeat split; auto.
    + repeat split; auto.
Qed.

Lemma apply_ops_keeps (ops : list Op) :
  ∀ w, registry_inv w →
    registry_inv (apply_ops ops w)
    ∧ user_max_requests (registry (apply_ops ops w))
      = user_max_requests (registry w)
    ∧ user_time_window (registry (apply_ops ops w))
      = user_time_window (registry w)
    ∧ user_max_queue_size (registry (apply_ops ops w))
      = user_max_queue_size (registry w)
    ∧ ∀ k r, limiters (registry w) !! k = Some r →
             limiters (registry (apply_ops ops w)) !! k = Some r.
Proof.
  induction ops as [| op ops IH]; intros w Hinv; simpl.
  - repeat split; auto; apply Hinv.
  - destruct (apply_op_keeps op w Hinv) as (Hinv1 & H1 & H2 & H3 & H4).
    destruct (IH _ Hinv1) as (Hinv2 & H1' & H2' & H3' & H4').
    split; [exact Hinv2 |]. rewrite H1', H2', H3'.
    repeat (split; [assumption |]). intros k r Hl. apply H4', H4, Hl.
Qed.

Lemma new_world_inv (mr : Z) (tw : Q) (mqs : Z) (heap0 : list RateLimiter) :
  registry_inv (new_world mr tw mqs heap0).
Proof.
  split; simpl; intros *; rewrite lookup_empty; discriminate.
Qed.

Lemma init_config (mr : Z) (tw : Q) (mqs : Z) (limiter : RateLimiter) :
  RateLimiter_init mr tw mqs = inr limiter →
  limiter = {| max_requests := mr; time_window := tw; max_queue_size := mqs;
               request_timestamps := []; request_queue := Queue.new mqs;
               queue_task := AwaitingGet; futures_created := 0 |}.
Proof.
  unfold RateLimiter_init, Deque.new.
  destruct (mr <? 0)%Z; [discriminate |]. intros [= <-]. reflexivity.
Qed.

(** C9.  Take a registry as [UserRateLimiter.__init__] builds it and let
    any sequence of lookups and limiter steps happen.  Then
    - [get_limiter] on a key the registry has returns the stored limiter
      object and changes nothing;
    - on a key it does not have, and when the constructor succeeds, it
      puts one new limiter object on the heap, fresh from [__init__] with
      the registry's [max_requests], [time_window] and [max_queue_size],
      stores it under the key and returns it;
    - once [get_limiter] has returned an object for a key it returns the
      same object for that key ever after;
    - two different keys name two different objects, and a step of one of
      them leaves the other, its window and its queue, as it was. *)
Theorem registry_correct (mr : Z) (tw : Q) (mqs : Z)
    (heap0 : list RateLimiter) (ops : list Op) :
  let w := apply_ops ops (new_world mr tw mqs heap0) in
  (∀ k r, limiters (registry w) !! k = Some r → get_limiter k w = (inr r, w))
  ∧ (∀ k limiter,
       limiters (registry w) !! k = None →
       RateLimiter_init mr tw mqs = inr limiter →
       get_limiter k w
       = (inr (length (heap w)),
          {| registry :=
               set_limiters (<[k := length (heap w)]> (limiters (registry w)))
                 (registry w);
             heap := heap w ++ [limiter] |})
       ∧ heap w !! length (heap w) = None
       ∧ limiter
         = {| max_requests := mr; time_window := tw; max_queue_size := mqs;
              request_timestamps := []; request_queue := Queue.new mqs;
              queue_task := AwaitingGet; futures_created := 0 |})
  ∧ (∀ k r ops',
       fst (get_limiter k w) = inr r →
       let w' := apply_ops ops' (snd (get_limiter k w)) in
       get_limiter k w' = (inr r, w'))
  ∧ (∀ k1 k2 r1 r2,
       k1 ≠ k2 →
       limiters (registry w) !! k1 = Some r1 →
       limiters (registry w) !! k2 = Some r2 →
       r1 ≠ r2
       ∧ ∀ ev, heap (snd (step_at r1 ev w)) !! r2 = heap w !! r2).
Proof.
  intros w.
  destruct (apply_ops_keeps ops _ (new_world_inv mr tw mqs heap0))
    as (Hinv & Hmr & Htw & Hmqs & _).
  fold w in Hinv, Hmr, Htw, Hmqs. simpl in Hmr, Htw, Hmqs.
  split; [| split; [| split]].
  - intros k r. apply get_limiter_present.
  - intros k limiter Hnone Hinit. split; [| split].
    + apply get_limiter_absent; [exact Hnone |].
      rewrite Hmr, Htw, Hmqs. exact Hinit.
    + apply lookup_ge_None. lia.
    + apply init_config, Hinit.
  - intros k r ops' Hget w'. apply get_limiter_present.
    apply get_limiter_stored in Hget.
    assert (Hinv1 : registry_inv (snd (get_limiter k w))).
    { apply (apply_op_keeps (GetLimiter k) w Hinv). }
    destruct (apply_ops_keeps ops' _ Hinv1) as (_ & _ & _ & _ & Hkeep).
    apply Hkeep, Hget.
  - intros k1 k2 r1 r2 Hne H1 H2.
    destruct Hinv as [Hdom Hinj].
    assert (Hr : r1 ≠ r2).
    { intros ->. apply Hne. eapply Hinj; eassumption. }
    split; [exact Hr |]. intros ev. unfold step_at.
    destruct (heap w !! r1) as [limiter |]; [| reflexivity].
    destruct (step ev limiter) as [o limiter']. simpl.
    apply list_lookup_insert_ne. exact Hr.
Qed.

(** ** Windows are in time order *)

Lemma monotonic_from_tail (a : Q) (l : list Q) :
  monotonic_from a l → monotonic l.
Proof.
  destruct l as [| b r]; simpl; [trivial | tauto].
Qed.

Lemma monotonic_suffix (l1 l2 : list Q) :
  monotonic (l1 ++ l2) → monotonic l2.
Proof.
  induction l1 as [| a l1 IH]; [trivial |].
  intros H. apply IH. exact (monotonic_from_tail a _ H).
Qed.

Lemma monotonic_from_prefix (a : Q) (l1 l2 : list Q) :
  monotonic_from a (l1 ++ l2) → monotonic_from a l1.
Proof.
  revert a. induction l1 as [| b l1 IH]; simpl; [trivial |].
  intros a [H1 H2]. split; [exact H1 | apply IH, H2].
Qed.

Lemma monotonic_prefix (l1 l2 : list Q) :
  monotonic (l1 ++ l2) → monotonic l1.
Proof.
  destruct l1 as [| a l1]; simpl; [trivial |]. apply monotonic_from_prefix.
Qed.

Lemma monotonic_from_last (a t0 t1 : Q) (l : list Q) :
  (t0 <= t1)%Q → monotonic_from a (l ++ [t0]) → monotonic_from a (l ++ [t1]).
Proof.
  intros Hle. revert a. induction l as [| b l IH]; simpl.
  - intros a [H _]. split; [lra | exact I].
  - intros a [H1 H2]. split; [exact H1 | apply IH, H2].
Qed.

Lemma monotonic_from_repeat (a t : Q) (l : list Q) :
  monotonic_from a (l ++ [t]) → monotonic_from a ((l ++ [t]) ++ [t]).
Proof.
  revert a. induction l as [| b l IH]; simpl.
  - intros a [H _]. repeat split; [exact H | lra].
  - intros a [H1 H2]. split; [exact H1 | apply IH, H2].
Qed.

Lemma in_order_later (t0 t1 : Q) (ts : list Timestamp) :
  (t0 <= t1)%Q → in_order t0 ts → in_order t1 ts.
Proof.
  unfold in_order. intros Hle. destruct ts as [| a l]; simpl; [trivial |].
  apply monotonic_from_last, Hle.
Qed.

Lemma in_order_append (t : Q) (ts : list Timestamp) :
  in_order t ts → in_order t (ts ++ [t]).
Proof.
  unfold in_order. destruct ts as [| a l]; simpl.
  - intros _. split; [lra | exact I].
  - apply monotonic_from_repeat.
Qed.

Lemma in_order_prune (t0 current_time time_window : Q) (ts : list Timestamp) :
  in_order t0 ts → in_order t0 (prune current_time time_window ts).
Proof.
  unfold in_order.
  destruct (prune_split current_time time_window ts) as (old & Heq & _).
  rewrite Heq at 1. rewrite <- app_assoc. apply monotonic_suffix.
Qed.

Lemma acquire_in_order (t0 current_time : Q) (self : RateLimiter) :
  (t0 <= current_time)%Q →
  in_order t0 (request_timestamps self) →
  in_order current_time (request_timestamps (snd (acquire current_time self))).
Proof.
  intros Hle Hord. rewrite acquire_window.
  assert (H : in_order current_time
                (prune current_time (time_window self)
                   (request_timestamps self))).
  { eapply in_order_later; [exact Hle |]. apply in_order_prune, Hord. }
  destruct (fst (acquire current_time self));
    [apply in_order_append, H | exact H].
Qed.

Lemma run_in_order (evs : list Event) :
  ∀ (t0 : Q) (self : RateLimiter),
    in_order t0 (request_timestamps self) →
    monotonic_from t0 (clock_readings evs) →
    ∃ t1, in_order t1 (request_timestamps (snd (run evs self))).
Proof.
  induction evs as [| ev evs IH]; intros t0 self Hord Hmon.
  - exists t0. exact Hord.
  - rewrite run_cons. cbn [snd].
    destruct (clock_readings_cons t0 ev evs Hmon) as (t1 & Hle & Hmon' & Hnow).
    apply (IH t1); [| exact Hmon'].
    destruct (step_view ev self) as [(now & Hev & Hview & _) | [Hview _]];
      unfold view in Hview; injection Hview as _ _ ->.
    + rewrite (Hnow now Hev) in *. apply (acquire_in_order t0); assumption.
    + eapply in_order_later; eassumption.
Qed.

(** Against a clock that never runs backwards the window of a limiter is
    always in time order, so that pruning leaves exactly the timestamps of
    the last [time_window] seconds. *)
Lemma window_in_order (mr : Z) (tw : Q) (mqs : Z) (self0 : RateLimiter)
    (evs : list Event) (current_time : Q) :
  RateLimiter_init mr tw mqs = inr self0 →
  monotonic (clock_readings evs) →
  let ts := request_timestamps (snd (run evs self0)) in
  monotonic ts
  ∧ prune current_time tw ts = List.filter (is_fresh current_time tw) ts.
Proof.
  intros Hinit Hmon ts.
  destruct (monotonic_start _ Hmon) as (t0 & Hmon0).
  assert (Hord0 : in_order t0 (request_timestamps self0)).
  { apply init_config in Hinit. subst self0. exact I. }
  destruct (run_in_order evs t0 self0 Hord0 Hmon0) as (t1 & Hord).
  assert (Hts : monotonic ts) by exact (monotonic_prefix _ _ Hord).
  split; [exact Hts | apply prune_monotonic, Hts].
Qed.

(** ** The theorems at work *)

(** One request a minute: of three simultaneous callers one passes, two
    queue up, and the task lets them out a minute apart, in the order they
    came. *)
Lemma fifo_release_witness :
  ∃ self0,
    RateLimiter_init 1 60 2 = inr self0
    ∧ enqueued (fst (run [Call 0; Call 0; Call 0; TaskGet; TaskTry 61;
                          TaskGet; TaskTry 100; TaskTry 122] self0))
      = [0; 1]
    ∧ before 0 1
        (released (fst (run [Call 0; Call 0; Call 0; TaskGet; TaskTry 61;
                             TaskGet; TaskTry 100; TaskTry 122] self0))).
Proof.
  eexists. split; [reflexivity |]. split; [reflexivity |].
  pose proof (fifo_release 1 60 2 _
                [Call 0; Call 0; Call 0; TaskGet; TaskTry 61;
                 TaskGet; TaskTry 100; TaskTry 122] eq_refl) as (_ & _ & H).
  apply H.
  - exists [], [], []. reflexivity.
  - apply list_elem_of_In. simpl. tauto.
Defined.

(** Stale entries in front of a window in time order: pruning keeps what a
    filter keeps. *)
Lemma prune_semantics_witness :
  prune 100 60 [0; 10; 70; 80]%Q
  = List.filter (is_fresh 100 60) [0; 10; 70; 80]%Q.
Proof.
  pose proof (prune_semantics 100
                {| max_requests := 4; time_window := 60; max_queue_size := 100;
                   request_timestamps := [0; 10; 70; 80]%Q;
                   request_queue := Queue.new 100;
                   queue_task := AwaitingGet;
                   futures_created := 0 |}) as (_ & _ & _ & H & _).
  apply H. simpl. repeat split; lra.
Defined.

(** The window was filled at time 0; half a minute later the task finds it
    full, thirty seconds from the expiry of its oldest entry, and sleeps
    for one second. *)
Lemma releaser_pacing_witness :
  ∃ self0,
    RateLimiter_init 1 60 1 = inr self0
    ∧ fst (wait_for_token 30 (snd (run [Call 0] self0)))
      = Sleep (Qmin (0 + 60 - 30) 1).
Proof.
  eexists. split; [reflexivity |].
  match goal with
  | |- fst (wait_for_token ?t ?s) = _ =>
      pose proof (releaser_pacing t s _ 0%Q [] eq_refl eq_refl) as H
  end.
  destruct (H ltac:(reflexivity)) as [Heq _]. rewrite Heq. reflexivity.
Defined.

(** Two requests a minute.  Calls at 0 and 30 fill the window and two more
    at 30 queue up, of which the task takes the first.  At 61 the entry of
    time 0 is stale: a new call is let through at once, the window goes
    from [[0; 30]] to [[30; 61]], and the queued future, the future the
    task holds and the count of futures stay as they were. *)
Lemma fast_path_frame_witness :
  ∃ self0,
    RateLimiter_init 2 60 5 = inr self0
    ∧ request_timestamps
        (snd (run [Call 0; Call 30; Call 30; Call 30; TaskGet] self0))
      = [0; 30]%Q
    ∧ fst (limit 61 (snd (run [Call 0; Call 30; Call 30; Call 30; TaskGet]
                            self0)))
      = Allowed
    ∧ request_timestamps
        (snd (limit 61 (snd (run [Call 0; Call 30; Call 30; Call 30; TaskGet]
                               self0))))
      = [30; 61]%Q
    ∧ Queue.items
        (request_queue
           (snd (limit 61
                   (snd (run [Call 0; Call 30; Call 30; Call 30; TaskGet]
                           self0)))))
      = [1]
    ∧ queue_task
        (snd (limit 61 (snd (run [Call 0; Call 30; Call 30; Call 30; TaskGet]
                               self0))))
      = AwaitingToken 0
    ∧ futures_created
        (snd (limit 61 (snd (run [Call 0; Call 30; Call 30; Call 30; TaskGet]
                               self0))))
      = 2.
Proof.
  eexists. split; [reflexivity |]. split; [reflexivity |].
  match goal with
  | |- fst (limit ?t ?s) = _ ∧ _ =>
      pose proof (fast_path_frame t s ltac:(vm_compute; reflexivity))
        as (_ & Hout & Hts & _ & Hitems & _ & Htask & Hfut & _)
  end.
  split; [exact Hout |].
  split; [rewrite Hts; reflexivity |].
  split; [rewrite Hitems; reflexivity |].
  split; [rewrite Htask | rewrite Hfut]; reflexivity.
Defined.

(** Two users of a registry that allows one request a minute: user A's
    call does not touch user B's limiter, and B's first call is let
    through after A's budget is spent. *)
Lemma registry_correct_witness :
  let w := apply_ops [GetLimiter "A"; GetLimiter "B"] (new_world 1 60 0 []) in
  fst (get_limiter "A" w) = inr 0
  ∧ fst (get_limiter "B" w) = inr 1
  ∧ heap (snd (step_at 0 (Call 0) w)) !! 1 = heap w !! 1
  ∧ fst (step_at 1 (Call 0)
           (snd (step_at 0 (Call 0) (snd (step_at 0 (Call 0) w)))))
    = Some (Limit 0 Allowed).
Proof.
  intros w.
  destruct (registry_correct 1 60 0 [] [GetLimiter "A"; GetLimiter "B"])
    as (Hpresent & _ & _ & Hother).
  fold w in Hpresent, Hother.
  assert (HA : limiters (registry w) !! "A" = Some 0) by reflexivity.
  assert (HB : limiters (registry w) !! "B" = Some 1) by reflexivity.
  rewrite (Hpresent "A" 0 HA), (Hpresent "B" 1 HB).
  split; [reflexivity |]. split; [reflexivity |].
  split; [| reflexivity].
  apply (Hother "A" "B" 0 1); [discriminate | exact HA | exact HB].
Defined.
